(** * AGENTIC_AI_CRM: the tool layer of [crm-backend/main.py]

    A shallow embedding of the four LangGraph tools ([log_interaction],
    [search_hcp], [edit_interaction], [check_compliance]) and of the
    [/chat] endpoint's reconciliation loop, together with the properties
    the specification states about them.

    Python [str] values are modelled as [string] (the UTF-8 bytes of the
    text), [Optional[str]] as [option string], a [dict] with string keys as
    a [gmap string _], and the MySQL connection as an explicit world that
    is threaded through an exception monad. *)

From Stdlib Require Import ZArith Ascii String DecimalString.
From stdpp Require Import base option list strings gmap.

Local Open Scope Z_scope.

(** ** Python strings *)

Module Py.

(** [c.lower()] on one byte of the text: A-Z go to a-z, every other byte
    is left as it is.  Python also lowers letters outside ASCII; their
    lower-case forms hold no ASCII letter, save for U+212A (to k) and
    U+0130 (to i followed by U+0307), and no restricted term has a k or
    an i before U+0307, so the terms found in a text are the same. *)
Definition lower_char (c : ascii) : ascii :=
  let n := nat_of_ascii c in
  if ((65 <=? n) && (n <=? 90))%nat then ascii_of_nat (n + 32) else c.

(** [s.lower()] *)
Fixpoint lower (s : string) : string :=
  match s with
  | EmptyString => EmptyString
  | String c s' => String (lower_char c) (lower s')
  end.

(** [t.startswith(w)] *)
Fixpoint startswith (t w : string) {struct w} : bool :=
  match w, t with
  | EmptyString, _ => true
  | String _ _, EmptyString => false
  | String a w', String b t' => bool_decide (a = b) && startswith t' w'
  end.

(** [w in t] for two strings: [w] occurs in [t] at some offset. *)
Fixpoint contains (t w : string) : bool :=
  startswith t w ||
  match t with
  | EmptyString => false
  | String _ t' => contains t' w
  end.

(** [sep.join(l)] *)
Fixpoint join (sep : string) (l : list string) : string :=
  match l with
  | [] => EmptyString
  | [x] => x
  | x :: l' => x +:+ sep +:+ join sep l'
  end.

(** [str(l)] for a list of strings that hold no quote, backslash or
    control character (the restricted terms are such strings): each
    element between single quotes, separated by a comma and a space. *)
Definition str_of_list (l : list string) : string :=
  "[" +:+ join ", " (map (fun x => "'" +:+ x +:+ "'") l) +:+ "]".

(** Truth value of an [Optional[str]] in a condition: [None] and the
    empty string are false. *)
Definition truthy (v : option string) : bool :=
  match v with
  | None => false
  | Some s => negb (String.eqb s EmptyString)
  end.

(** [str(n)] for an integer: its decimal digits, after a minus sign
    when it is negative. *)
Definition str_of_int (n : Z) : string :=
  NilZero.string_of_int (Z.to_int n).

End Py.

(** ** check_compliance *)

Definition risky_keywords : list string :=
  ["guarantee"; "cure"; "miracle"; "off-label"].

(** [[word for word in risky_keywords if word in text.lower()]] *)
Definition flagged (text : string) : list string :=
  List.filter (fun word => Py.contains (Py.lower text) word) risky_keywords.

Definition check_compliance (text : string) : string :=
  let flagged := flagged text in
  match flagged with
  | _ :: _ =>
      "⚠️ COMPLIANCE WARNING: Found restricted terms: "
        +:+ Py.str_of_list flagged +:+ ". Please rephrase."
  | [] => "✅ Compliance Check Passed."
  end.

(** ** The MySQL store behind [get_db()]

    The statements are the ones [main.py] sends, with MySQL's semantics.
    The schema of the [hcp_crm] database is not part of the source; the
    tables follow section 6 of the specification. *)

(** The six columns that the INSERT of [log_interaction] names. *)
Inductive column :=
| col_hcp_name | col_interaction_type | col_interaction_date
| col_topics_discussed | col_sentiment | col_outcomes.

Global Instance column_eq_dec : EqDecision column.
Proof. solve_decision. Defined.

(** Modelled from the spec: the table [interactions], whose schema is
    missing from the source, is keyed by an auto-assigned identifier and
    has the six columns of a record.  This is one row of it; a cell is a
    text or SQL NULL ([None]). *)
Record row := Row {
  id : Z;
  hcp_name : option string;
  interaction_type : option string;
  interaction_date : option string;
  topics_discussed : option string;
  sentiment : option string;
  outcomes : option string
}.

Definition cell (c : column) (r : row) : option string :=
  match c with
  | col_hcp_name => hcp_name r
  | col_interaction_type => interaction_type r
  | col_interaction_date => interaction_date r
  | col_topics_discussed => topics_discussed r
  | col_sentiment => sentiment r
  | col_outcomes => outcomes r
  end.

Definition set_cell (c : column) (v : option string) (r : row) : row :=
  match c with
  | col_hcp_name => Row (id r) v (interaction_type r) (interaction_date r) (topics_discussed r) (sentiment r) (outcomes r)
  | col_interaction_type => Row (id r) (hcp_name r) v (interaction_date r) (topics_discussed r) (sentiment r) (outcomes r)
  | col_interaction_date => Row (id r) (hcp_name r) (interaction_type r) v (topics_discussed r) (sentiment r) (outcomes r)
  | col_topics_discussed => Row (id r) (hcp_name r) (interaction_type r) (interaction_date r) v (sentiment r) (outcomes r)
  | col_sentiment => Row (id r) (hcp_name r) (interaction_type r) (interaction_date r) (topics_discussed r) v (outcomes r)
  | col_outcomes => Row (id r) (hcp_name r) (interaction_type r) (interaction_date r) (topics_discussed r) (sentiment r) v
  end.

(** [SET c1 = %s, c2 = %s, ...] with the bound parameters, left to right. *)
Fixpoint assign (sets : list column) (params : list (option string)) (r : row) : row :=
  match sets, params with
  | c :: sets', v :: params' => assign sets' params' (set_cell c v r)
  | _, _ => r
  end.

(** Modelled from the spec: the table [hcp_directory], whose schema is
    missing from the source, is read-only reference data.  This is one row
    of it, with the three columns the SELECT of [search_hcp] names. *)
Record directory_entry := Entry {
  name : string;
  specialty : string;
  hospital : string
}.

(** The statements of [main.py].  An [%s] placeholder is bound to the
    parameter at its position; the SELECT is sent as the text the f-string
    builds, with the caller's text inside it. *)
Inductive statement :=
| InsertInteraction (cols : list column)
| UpdateLastInteraction (updates : list column)
| SelectDirectory (sql : string).

(** What a Python call returns: a value, or a raised exception with its
    [str(e)]. *)
Inductive outcome (A : Type) :=
| Returns (a : A)
| Raises (e : string).
Arguments Returns {A} a.
Arguments Raises {A} e.

(** Where the server fails during one tool invocation, if it does. *)
Inductive fault :=
| NoFault
| ConnectFails (e : string)
| ExecuteFails (e : string)
| CommitFails (e : string).

(** The calls made on the driver, in order. *)
Inductive call :=
| Connect
| Cursor
| Execute (s : statement) (params : list (option string))
| Fetchall
| Commit.

(** The committed database, the server's behaviour and the call log.
    [directory_select] is the server's answer to a SELECT text on
    [hcp_directory]: the rows found, or the error it reports. *)
Record world := World {
  interactions : list row;
  auto_increment : Z;
  directory_select : string -> outcome (list directory_entry);
  server : fault;
  calls : list call
}.

(** An open connection: the view of its uncommitted transaction and the
    result set of its cursor. *)
Record connection := Connection {
  tx_interactions : list row;
  tx_auto_increment : Z;
  result_set : list directory_entry
}.

(** Largest identifier of a table, if it has a row. *)
Fixpoint max_id (rows : list row) : option Z :=
  match rows with
  | [] => None
  | r :: rows' =>
      match max_id rows' with
      | None => Some (id r)
      | Some m => Some (Z.max (id r) m)
      end
  end.

(** Apply [f] to the first row that satisfies [p] and to no other. *)
Fixpoint update_first (p : row -> bool) (f : row -> row) (rows : list row) : list row :=
  match rows with
  | [] => []
  | r :: rows' => if p r then f r :: rows' else r :: update_first p f rows'
  end.

(** [UPDATE interactions SET ... ORDER BY id DESC LIMIT 1]: the row that
    comes first by descending identifier is assigned; on an empty table
    the statement matches no row and succeeds. *)
Definition update_last (f : row -> row) (rows : list row) : list row :=
  match max_id rows with
  | None => rows
  | Some m => update_first (fun r => id r =? m) f rows
  end.

Definition null_row (i : Z) : row := Row i None None None None None None.

(** The effect of a statement inside a transaction.  The driver refuses a
    statement whose placeholders and parameters differ in number. *)
Definition run (s : statement) (params : list (option string))
    (select : string -> outcome (list directory_entry)) (db : connection) : outcome connection :=
  match s with
  | InsertInteraction cols =>
      if bool_decide (length cols = length params) then
        Returns (Connection
          (tx_interactions db ++ [assign cols params (null_row (tx_auto_increment db))])
          (tx_auto_increment db + 1) (result_set db))
      else Raises "Not all parameters were used in the SQL statement"
  | UpdateLastInteraction updates =>
      if bool_decide (length updates = length params) then
        Returns (Connection
          (update_last (assign updates params) (tx_interactions db))
          (tx_auto_increment db) (result_set db))
      else Raises "Not all parameters were used in the SQL statement"
  | SelectDirectory sql =>
      match params, select sql with
      | [], Returns found =>
          Returns (Connection (tx_interactions db) (tx_auto_increment db) found)
      | [], Raises e => Raises e
      | _ :: _, _ => Raises "Not all parameters were used in the SQL statement"
      end
  end.

(** ** The monad of a tool body: world passing with exceptions *)

Definition io (A : Type) : Type := world -> outcome A * world.

Definition ret {A} (a : A) : io A := fun w => (Returns a, w).

Definition raise {A} (e : string) : io A := fun w => (Raises e, w).

Definition bind {A B} (m : io A) (k : A -> io B) : io B :=
  fun w =>
    match m w with
    | (Returns a, w') => k a w'
    | (Raises e, w') => (Raises e, w')
    end.

(** [try: m  except Exception as e: h(str(e))] *)
Definition try_except {A} (m : io A) (h : string -> io A) : io A :=
  fun w =>
    match m w with
    | (Returns a, w') => (Returns a, w')
    | (Raises e, w') => h e w'
    end.

Notation "x <- m ;; k" := (bind m (fun x => k))
  (at level 100, m at next level, right associativity).
Notation "m ;;; k" := (bind m (fun _ => k))
  (at level 100, right associativity).

Definition record_call (c : call) (w : world) : world :=
  World (interactions w) (auto_increment w) (directory_select w) (server w) (calls w ++ [c]).

(** [get_db()]: [mysql.connector.connect(...)] *)
Definition get_db : io connection :=
  fun w =>
    let w' := record_call Connect w in
    match server w with
    | ConnectFails e => (Raises e, w')
    | _ => (Returns (Connection (interactions w) (auto_increment w) []), w')
    end.

(** [db.cursor()] *)
Definition cursor (db : connection) : io connection :=
  fun w => (Returns db, record_call Cursor w).

(** [cursor.execute(sql, val)] *)
Definition execute (db : connection) (sql : statement) (val : list (option string)) : io connection :=
  fun w =>
    let w' := record_call (Execute sql val) w in
    match server w with
    | ExecuteFails e => (Raises e, w')
    | _ =>
        match run sql val (directory_select w) db with
        | Returns db' => (Returns db', w')
        | Raises e => (Raises e, w')
        end
    end.

(** [cursor.fetchall()] *)
Definition fetchall (db : connection) : io (list directory_entry) :=
  fun w => (Returns (result_set db), record_call Fetchall w).

(** [db.commit()]: the transaction becomes the committed state. *)
Definition commit (db : connection) : io unit :=
  fun w =>
    match server w with
    | CommitFails e => (Raises e, record_call Commit w)
    | _ =>
        (Returns tt,
         World (tx_interactions db) (tx_auto_increment db)
               (directory_select w) (server w) (calls w ++ [Commit]))
    end.

(** ** The tools *)

Definition interaction_columns : list column :=
  [col_hcp_name; col_interaction_type; col_interaction_date;
   col_topics_discussed; col_sentiment; col_outcomes].

Definition log_interaction (hcp_name type date : string)
    (topics sentiment outcomes : option string) : io string :=
  try_except
    (db <- get_db ;;
     cursor <- cursor db ;;
     let sql := InsertInteraction interaction_columns in
     let val := [Some hcp_name; Some type; Some date; topics; sentiment; outcomes] in
     db <- execute cursor sql val ;;
     commit db ;;;
     ret "✅ Interaction logged successfully.")
    (fun e => ret ("❌ Error logging interaction: " +:+ e)).

(** [str(result)] of the fetched rows is Python's rendering of a list of
    tuples; it is a parameter of the tool. *)
Definition search_hcp (str_of_rows : list directory_entry -> string)
    (name_query : string) : io string :=
  db <- get_db ;;
  cursor <- cursor db ;;
  cursor <- execute cursor
    (SelectDirectory
       ("SELECT name, specialty, hospital FROM hcp_directory WHERE name LIKE '%"
          +:+ name_query +:+ "%'")) [] ;;
  result <- fetchall cursor ;;
  ret (match result with
       | _ :: _ => str_of_rows result
       | [] => "No HCP found."
       end).

(** The guard of every field of [edit_interaction]:
    [if v and v != "None"]. *)
Definition given (v : option string) : bool :=
  Py.truthy v && negb (bool_decide (v = Some "None")).

(** One [if] block: append the column to [updates] and the value to
    [values]. *)
Definition add_update (c : column) (v : option string)
    (acc : list column * list (option string)) : list column * list (option string) :=
  if given v then (acc.1 ++ [c], acc.2 ++ [v]) else acc.

(** [updates] and [values] after the six [if] blocks. *)
Definition collect_updates (hcp_name type date topics sentiment outcomes : option string)
    : list column * list (option string) :=
  add_update col_outcomes outcomes
    (add_update col_sentiment sentiment
      (add_update col_topics_discussed topics
        (add_update col_interaction_date date
          (add_update col_interaction_type type
            (add_update col_hcp_name hcp_name ([], [])))))).

Definition edit_interaction (hcp_name type date topics sentiment outcomes : option string)
    : io string :=
  try_except
    (db <- get_db ;;
     cursor <- cursor db ;;
     let '(updates, values) :=
       collect_updates hcp_name type date topics sentiment outcomes in
     match updates with
     | [] => ret "No changes requested."
     | _ :: _ =>
         let sql := UpdateLastInteraction updates in
         db <- execute cursor sql values ;;
         commit db ;;;
         ret "✅ Interaction updated in database."
     end)
    (fun e => ret ("❌ Error updating: " +:+ e)).

(** ** Calling a tool with an argument mapping

    A tool call carries a mapping from parameter names to JSON values; a
    value here is a text or null ([None]).  The mapping is bound to the
    function's signature: a parameter without a default must be present
    (and a [str] parameter is not null), a parameter with a default takes
    it when its key is missing, other keys are dropped. *)

Definition required (args : gmap string (option string)) (k : string) : outcome string :=
  match args !! k with
  | Some (Some s) => Returns s
  | Some None => Raises ("validation error: " +:+ k +:+ " is not a string")
  | None => Raises ("validation error: " +:+ k +:+ " is missing")
  end.

Definition optional (args : gmap string (option string)) (k : string)
    (dflt : option string) : option string :=
  match args !! k with
  | Some v => v
  | None => dflt
  end.

Definition lift {A} (o : outcome A) : io A := fun w => (o, w).

(** [log_interaction.invoke(args)]: [hcp_name], [type] and [date] have no
    default; [topics], [sentiment] and [outcomes] default to ["None"]. *)
Definition invoke_log_interaction (args : gmap string (option string)) : io string :=
  hcp_name <- lift (required args "hcp_name") ;;
  type <- lift (required args "type") ;;
  date <- lift (required args "date") ;;
  log_interaction hcp_name type date
    (optional args "topics" (Some "None"))
    (optional args "sentiment" (Some "None"))
    (optional args "outcomes" (Some "None")).

(** [edit_interaction.invoke(args)]: every parameter defaults to [None]. *)
Definition invoke_edit_interaction (args : gmap string (option string)) : io string :=
  edit_interaction
    (optional args "hcp_name" None) (optional args "type" None)
    (optional args "date" None) (optional args "topics" None)
    (optional args "sentiment" None) (optional args "outcomes" None).

(** ** The [/chat] endpoint *)

Record tool_call := ToolCall {
  tool_name : string;
  tool_args : gmap string (option string)
}.

(** The messages of an agent run.  Only an [AIMessage] has the attribute
    [tool_calls]. *)
Inductive message :=
| SystemMessage (content : string)
| HumanMessage (content : string)
| AIMessage (content : string) (tool_calls : list tool_call)
| ToolMessage (content : string).

Definition content (m : message) : string :=
  match m with
  | SystemMessage c | HumanMessage c | AIMessage c _ | ToolMessage c => c
  end.

(** [msg.tool_calls] when [hasattr(msg, 'tool_calls')] *)
Definition tool_calls (m : message) : option (list tool_call) :=
  match m with
  | AIMessage _ tcs => Some tcs
  | _ => None
  end.

Definition SYSTEM_PROMPT : string :=
  "You are a precise data entry assistant. Follow these rules STRICTLY:
1. NEW vs EDIT: If the user says 'log this', use 'log_interaction'. If the user says 'change', 'update', 'correct', or 'it was actually', use 'edit_interaction'.
2. NO GUESSING: When logging, if the user did not say the interaction type, log it as 'None'. If they didn't mention outcomes, log 'None'.
3. DATES: Always convert 'today' to YYYY-MM-DD format.
4. ARGUMENTS: When using 'edit_interaction', ONLY pass the specific field to be changed.".

(** The inner loop: [for tool in msg.tool_calls]. *)
Definition scan_tool_calls (extracted_data : option (gmap string (option string)))
    (tcs : list tool_call) : option (gmap string (option string)) :=
  fold_left
    (fun extracted_data tool =>
       if bool_decide (tool_name tool ∈ ["log_interaction"; "edit_interaction"])
       then Some (tool_args tool) else extracted_data)
    tcs extracted_data.

(** The outer loop: [for msg in result["messages"]], from [None]. *)
Definition extract_tool_data (messages : list message)
    : option (gmap string (option string)) :=
  fold_left
    (fun extracted_data msg =>
       match tool_calls msg with
       | Some ((_ :: _) as tcs) => scan_tool_calls extracted_data tcs
       | _ => extracted_data
       end)
    messages None.

(** The body of the response: ["response"] and ["form_data"]. *)
Record chat_response := ChatResponse {
  response : string;
  form_data : option (gmap string (option string))
}.

(** [chat_endpoint(req)], with the compiled agent as a parameter:
    [agent_executor_invoke messages] is [result["messages"]]. *)
Definition chat_endpoint (agent_executor_invoke : list message -> io (list message))
    (req_message : string) : io chat_response :=
  let messages := [SystemMessage SYSTEM_PROMPT; HumanMessage req_message] in
  result <- agent_executor_invoke messages ;;
  match last result with
  | None => raise "list index out of range"
  | Some m =>
      let last_message := content m in
      let extracted_data := extract_tool_data result in
      ret (ChatResponse last_message extracted_data)
  end.

(** * Vocabulary of the properties *)

(** A term occurs in a text, case ignored: some stretch of the text has
    the same lower-case form as the term. *)
Definition occurs_ignoring_case (word text : string) : Prop :=
  ∃ pre mid suf, text = pre +:+ mid +:+ suf ∧ Py.lower mid = Py.lower word.

(** The argument the caller gave for the field stored in a column. *)
Definition argument (c : column)
    (hcp_name type date topics sentiment outcomes : option string) : option string :=
  match c with
  | col_hcp_name => hcp_name
  | col_interaction_type => type
  | col_interaction_date => date
  | col_topics_discussed => topics
  | col_sentiment => sentiment
  | col_outcomes => outcomes
  end.

(** An empty string replaced by [u]. *)
Definition blank_as (u v : option string) : option string :=
  match v with
  | Some EmptyString => u
  | _ => v
  end.

(** Every stored identifier is below the next one the table assigns. *)
Definition ids_assigned (w : world) : Prop :=
  Forall (λ r, id r < auto_increment w) (interactions w).

(** The invocations of a turn, in order: the tool calls of its messages. *)
Definition invocations (messages : list message) : list tool_call :=
  flat_map (λ m, default [] (tool_calls m)) messages.

(** The invocation is a Log or an Edit. *)
Definition is_log_or_edit (tc : tool_call) : Prop :=
  tool_name tc = "log_interaction" ∨ tool_name tc = "edit_interaction".

Global Instance is_log_or_edit_dec tc : Decision (is_log_or_edit tc).
Proof. unfold is_log_or_edit. apply _. Defined.

(** The message of the exception a failing server raises, if it fails. *)
Definition fault_message (f : fault) : option string :=
  match f with
  | NoFault => None
  | ConnectFails e | ExecuteFails e | CommitFails e => Some e
  end.


(** The statement text [search_hcp] builds for a searched name. *)
Definition select_text (name_query : string) : string :=
  "SELECT name, specialty, hospital FROM hcp_directory WHERE name LIKE '%"
    +:+ name_query +:+ "%'".

(** * Stores and turns used as examples *)

(** A table with one logged record whose topics are "A". *)
Definition one_record : world :=
  World [Row 1 (Some "Dr. Smith") (Some "Meeting") (Some "2024-05-01")
             (Some "A") (Some "None") (Some "None")]
        2 (λ _, Returns []) NoFault [].

(** A store whose server refuses the connection. *)
Definition server_down : world :=
  World [] 1 (λ _, Returns [])
        (ConnectFails "2003: Can't connect to MySQL server on 'localhost:3306'") [].

(** A working store with no record. *)
Definition empty_store : world := World [] 1 (λ _, Returns []) NoFault [].

(** A working store whose server rejects the SELECT that an apostrophe in
    the searched name breaks. *)
Definition rejects_broken_select : world :=
  World [] 1
    (λ sql,
       if bool_decide
            (sql = "SELECT name, specialty, hospital FROM hcp_directory WHERE name LIKE '%O'Brien%'")
       then Raises "1064 (42000): You have an error in your SQL syntax"
       else Returns [])
    NoFault [].

(** A turn that runs a Search, a Log and a Search, then answers. *)
Definition search_log_search : list message :=
  [SystemMessage SYSTEM_PROMPT;
   HumanMessage "Log a meeting with Dr. Smith today about pricing";
   AIMessage EmptyString
     [ToolCall "search_hcp" {[ "name_query" := Some "Smith" ]};
      ToolCall "log_interaction"
        {[ "hcp_name" := Some "Dr. Smith"; "type" := Some "Meeting";
           "date" := Some "2024-05-01"; "topics" := Some "pricing" ]};
      ToolCall "search_hcp" {[ "name_query" := Some "Dr. Smith" ]}];
   ToolMessage "[('Dr. Smith', 'Cardiology', 'City Hospital')]";
   ToolMessage "✅ Interaction logged successfully.";
   ToolMessage "[('Dr. Smith', 'Cardiology', 'City Hospital')]";
   AIMessage "The meeting with Dr. Smith is logged." []].

(** A working store whose directory holds one provider, found by the
    SELECT for "Smith". *)
Definition smith_directory : world :=
  World [] 1
    (λ sql,
       if bool_decide (sql = select_text "Smith")
       then Returns [Entry "Dr. Smith" "Cardiology" "City Hospital"]
       else Returns [])
    NoFault [].

(** The store of [one_record] on a server that fails at the commit. *)
Definition commit_fails : world :=
  World (interactions one_record) 2 (λ _, Returns [])
        (CommitFails "2013: Lost connection to MySQL server during query") [].

(** * Properties *)

(** ** Strings *)

Section strings.

Lemma startswith_spec (t w : string) :
  Py.startswith t w = true ↔ ∃ suf, t = w +:+ suf.
Proof.
  revert t. induction w as [|a w IH]; intros t; simpl.
  - split; [intros _; by exists t | done].
  - destruct t as [|b t]; simpl.
    + split; [done | by intros [suf ?]].
    + rewrite andb_true_iff, bool_decide_eq_true, IH. split.
      * intros [-> [suf ->]]. by exists suf.
      * intros [suf [= -> ->]]. split; [done | by exists suf].
Qed.

Lemma contains_spec (t w : string) :
  Py.contains t w = true ↔ ∃ pre suf, t = pre +:+ w +:+ suf.
Proof.
  induction t as [|b t IH]; simpl.
  - rewrite orb_false_r, startswith_spec. split.
    + intros [suf ->]. by exists EmptyString, suf.
    + intros [[|c pre] [suf H]]; [by exists suf | done].
  - rewrite orb_true_iff, startswith_spec, IH. split.
    + intros [[suf ->] | (pre & suf & ->)].
      * by exists EmptyString, suf.
      * by exists (String b pre), suf.
    + intros [[|c pre] [suf H]].
      * left. by exists suf.
      * right. simpl in H. injection H as -> ->. by exists pre, suf.
Qed.

Lemma lower_app (a b : string) :
  Py.lower (a +:+ b) = Py.lower a +:+ Py.lower b.
Proof. induction a as [|c a IH]; simpl; [done | by rewrite IH]. Qed.

Lemma lower_split (t a b : string) :
  Py.lower t = a +:+ b →
  ∃ a' b', t = a' +:+ b' ∧ Py.lower a' = a ∧ Py.lower b' = b.
Proof.
  revert t. induction a as [|c a IH]; intros t H; simpl in H.
  - by exists EmptyString, t.
  - destruct t as [|d t]; simpl in H; [done |].
    injection H as Hc Ht. destruct (IH t Ht) as (a' & b' & -> & Ha & Hb).
    exists (String d a'), b'. simpl. by rewrite Hc, Ha.
Qed.

Lemma filter_sublist {A} (f : A → bool) (l : list A) :
  List.filter f l `sublist_of` l.
Proof.
  induction l as [|x l IH]; simpl; [constructor |].
  destruct (f x); by constructor.
Qed.

End strings.

(** ** check_compliance *)

Lemma risky_keywords_lower (word : string) :
  In word risky_keywords → Py.lower word = word.
Proof. simpl. intros [<- | [<- | [<- | [<- | []]]]]; reflexivity. Qed.

Lemma flagged_spec (text word : string) :
  In word (flagged text) ↔ In word risky_keywords ∧ occurs_ignoring_case word text.
Proof.
  unfold flagged. rewrite filter_In, contains_spec. split.
  - intros [Hin (pre & suf & H)]. split; [done |].
    apply lower_split in H as (pre' & rest & -> & _ & H).
    apply lower_split in H as (mid & suf' & -> & Hmid & _).
    exists pre', mid, suf'. by rewrite Hmid, (risky_keywords_lower word Hin).
  - intros [Hin (pre & mid & suf & -> & Hmid)]. split; [done |].
    exists (Py.lower pre), (Py.lower suf).
    by rewrite !lower_app, Hmid, (risky_keywords_lower word Hin).
Qed.

(** C6: the scan flags exactly the restricted terms that occur in the
    text with case ignored, as a sub-list of the fixed list in its order;
    the text "This drug is a MIRACLE cure" flags cure then miracle, and a
    text flags nothing exactly when no restricted term occurs in it. *)
Theorem check_compliance_flags_terms_present :
  risky_keywords = ["guarantee"; "cure"; "miracle"; "off-label"] ∧
  (∀ text word,
     In word (flagged text) ↔ In word risky_keywords ∧ occurs_ignoring_case word text) ∧
  (∀ text, flagged text `sublist_of` risky_keywords) ∧
  flagged "This drug is a MIRACLE cure" = ["cure"; "miracle"] ∧
  (∀ text,
     flagged text = [] ↔
     ∀ word, In word risky_keywords → ¬ occurs_ignoring_case word text) ∧
  (∀ text,
     check_compliance text = "✅ Compliance Check Passed." ↔ flagged text = []).
Proof.
  split; [reflexivity |]. split; [apply flagged_spec |].
  split; [intros; apply filter_sublist |]. split; [reflexivity |]. split.
  - intros text. split.
    + intros H word Hin Hocc.
      assert (In word (flagged text)) as Hf by (apply flagged_spec; done).
      by rewrite H in Hf.
    + intros H. destruct (flagged text) as [|w l] eqn:E; [done |].
      assert (In w (flagged text)) as Hf by (rewrite E; by left).
      apply flagged_spec in Hf as [Hin Hocc]. by destruct (H w Hin).
  - intros text. unfold check_compliance.
    destruct (flagged text) as [|w l]; [done |]. split; [|done].
    intros H. exfalso. vm_compute in H. discriminate H.
Qed.

(** ** The store *)

Section store.

Lemma set_cell_id c v r : id (set_cell c v r) = id r.
Proof. by destruct c. Qed.

Lemma cell_set_cell_eq c v r : cell c (set_cell c v r) = v.
Proof. by destruct c. Qed.

Lemma cell_set_cell_ne c c' v r : c ≠ c' → cell c' (set_cell c v r) = cell c' r.
Proof. by destruct c, c'. Qed.

Lemma assign_id cs vs r : id (assign cs vs r) = id r.
Proof.
  revert vs r. induction cs as [|c cs IH]; intros [|v vs] r; simpl; try done.
  by rewrite IH, set_cell_id.
Qed.

(** A column that is not assigned keeps its cell. *)
Lemma assign_cell_other c cs vs r : c ∉ cs → cell c (assign cs vs r) = cell c r.
Proof.
  revert vs r. induction cs as [|c' cs IH]; intros [|v vs] r Hc; simpl; try done.
  apply not_elem_of_cons in Hc as [Hne Hc].
  rewrite IH by done. by apply cell_set_cell_ne.
Qed.

(** A cell after an assignment is the old one or one of the parameters. *)
Lemma assign_cell_cases c cs vs r :
  cell c (assign cs vs r) = cell c r ∨ cell c (assign cs vs r) ∈ vs.
Proof.
  revert vs r. induction cs as [|c' cs IH]; intros [|v vs] r; simpl; auto.
  destruct (IH vs (set_cell c' v r)) as [-> | Hin].
  - destruct (decide (c' = c)) as [-> | Hne].
    + right. rewrite cell_set_cell_eq. by left.
    + left. by apply cell_set_cell_ne.
  - right. by right.
Qed.

(** A cell after an assignment is the old one, or the parameter bound to
    a placeholder of its own column. *)
Lemma assign_cell_zip c cs vs r :
  cell c (assign cs vs r) = cell c r ∨ (c, cell c (assign cs vs r)) ∈ zip cs vs.
Proof.
  revert vs r. induction cs as [|c' cs IH]; intros [|v vs] r; simpl; auto.
  destruct (IH vs (set_cell c' v r)) as [-> | Hin].
  - destruct (decide (c' = c)) as [-> | Hne].
    + right. rewrite cell_set_cell_eq. by left.
    + left. by apply cell_set_cell_ne.
  - right. by right.
Qed.


Lemma update_first_Forall2 p f rows :
  Forall2 (λ r r', r' = r ∨ (p r = true ∧ r' = f r)) rows (update_first p f rows).
Proof.
  induction rows as [|r rows IH]; simpl; [constructor |].
  destruct (p r) eqn:Hp.
  - constructor; [by right |]. apply Forall_Forall2_diag, Forall_forall. by left.
  - constructor; [by left | done].
Qed.

(** At most one position of the table differs. *)
Lemma update_first_one_position p f rows :
  ∃ i, ∀ j, j ≠ i → update_first p f rows !! j = rows !! j.
Proof.
  induction rows as [|r rows [i IH]]; simpl; [by exists 0%nat |].
  destruct (p r).
  - exists 0%nat. by intros [|j] ?.
  - exists (S i). intros [|j] ?; [done |]. simpl. apply IH. congruence.
Qed.

(** [UPDATE ... ORDER BY id DESC LIMIT 1] assigns a row that holds the
    largest identifier and leaves every other row as it is. *)
Lemma update_last_Forall2 f rows :
  Forall2 (λ r r', r' = r ∨ (max_id rows = Some (id r) ∧ r' = f r))
          rows (update_last f rows).
Proof.
  unfold update_last. destruct (max_id rows) as [m|] eqn:Hm.
  - eapply Forall2_impl; [apply update_first_Forall2 |].
    intros r r' [-> | [Hp ->]]; [by left | right].
    apply Z.eqb_eq in Hp. by rewrite Hp.
  - apply Forall_Forall2_diag, Forall_forall. by left.
Qed.

Lemma update_last_one_position f rows :
  ∃ i, ∀ j, j ≠ i → update_last f rows !! j = rows !! j.
Proof.
  unfold update_last. destruct (max_id rows); [apply update_first_one_position |].
  by exists 0%nat.
Qed.

Lemma update_last_nil f : update_last f [] = [].
Proof. done. Qed.

Lemma update_last_same f rows : (∀ r, f r = r) → update_last f rows = rows.
Proof.
  intros Hf. unfold update_last. destruct (max_id rows) as [m|]; [|done].
  induction rows as [|r rows IH]; simpl; [done |].
  destruct (id r =? m); by rewrite ?Hf, ?IH.
Qed.

Lemma max_id_ge rows m r : max_id rows = Some m → r ∈ rows → id r ≤ m.
Proof.
  revert m. induction rows as [|r0 rows IH]; intros m Hm Hin; [by inversion Hin |].
  simpl in Hm. apply elem_of_cons in Hin.
  destruct (max_id rows) as [m'|] eqn:E.
  - injection Hm as <-. destruct Hin as [-> | Hin]; [lia |].
    specialize (IH m' eq_refl Hin). lia.
  - injection Hm as <-. destruct Hin as [-> | Hin]; [lia |].
    destruct rows; [by inversion Hin | simpl in E; by destruct (max_id rows)].
Qed.

Lemma max_id_attained rows m : max_id rows = Some m → ∃ r, r ∈ rows ∧ id r = m.
Proof.
  revert m. induction rows as [|r0 rows IH]; intros m Hm; [done |].
  simpl in Hm. destruct (max_id rows) as [m'|].
  - injection Hm as <-. destruct (Z.max_spec (id r0) m') as [[_ ->] | [_ ->]].
    + destruct (IH m' eq_refl) as (r & Hin & Hr). exists r. split; [by right | done].
    + exists r0. split; [by left | done].
  - injection Hm as <-. exists r0. split; [by left | done].
Qed.

Lemma update_first_insert p f rows :
  (∃ r, r ∈ rows ∧ p r = true) →
  ∃ i r, rows !! i = Some r ∧ p r = true ∧ update_first p f rows = <[i:=f r]> rows.
Proof.
  induction rows as [|r0 rows IH]; intros (r & Hin & Hr); [by inversion Hin |].
  simpl. destruct (p r0) eqn:Hp0.
  - by exists 0%nat, r0.
  - apply elem_of_cons in Hin as [-> | Hin]; [congruence |].
    destruct IH as (i & r1 & Hi & Hp1 & ->); [by exists r |].
    by exists (S i), r1.
Qed.

(** On a table that has a row, the UPDATE assigns exactly one position,
    and its row holds the largest identifier. *)
Lemma update_last_insert f rows :
  rows ≠ [] →
  ∃ i r, rows !! i = Some r ∧ max_id rows = Some (id r) ∧
         update_last f rows = <[i:=f r]> rows.
Proof.
  intros Hne. unfold update_last. destruct (max_id rows) as [m|] eqn:Hm.
  - destruct (update_first_insert (λ r, id r =? m) f rows) as (i & r & Hi & Hp & ->).
    { destruct (max_id_attained rows m Hm) as (r & Hin & <-).
      exists r. split; [done | apply Z.eqb_refl]. }
    apply Z.eqb_eq in Hp. exists i, r. by rewrite Hp.
  - destruct rows as [|r rows]; [done |]. simpl in Hm. by destruct (max_id rows).
Qed.

Lemma max_id_snoc rows r :
  Forall (λ r', id r' < id r) rows → max_id (rows ++ [r]) = Some (id r).
Proof.
  induction 1 as [|r0 rows Hlt _ IH]; simpl; [done |].
  rewrite IH. f_equal. lia.
Qed.

(** When the newest row is last and holds the largest identifier, it is
    the row the UPDATE assigns. *)
Lemma update_last_snoc f rows r :
  Forall (λ r', id r' < id r) rows →
  update_last f (rows ++ [r]) = rows ++ [f r].
Proof.
  intros Hlt. unfold update_last. rewrite max_id_snoc by done.
  induction Hlt as [|r0 rows Hr0 _ IH]; simpl.
  - by rewrite Z.eqb_refl.
  - destruct (Z.eqb_spec (id r0) (id r)); [lia |]. by rewrite IH.
Qed.

End store.

(** ** edit_interaction *)

Section edit.

Lemma given_spec v :
  given v = true ↔ ∃ s, v = Some s ∧ s ≠ EmptyString ∧ s ≠ "None".
Proof.
  unfold given, Py.truthy. destruct v as [s|]; simpl.
  - rewrite andb_true_iff, !negb_true_iff, bool_decide_eq_false.
    rewrite <- not_true_iff_false, String.eqb_eq. split.
    + intros [H1 H2]. exists s. split_and!; [done | done | congruence].
    + intros (s' & [= <-] & H1 & H2). split; congruence.
  - split; [done | by intros (s & ? & _)].
Qed.

Lemma given_None : given None = false.
Proof. done. Qed.

Lemma given_unset : given (Some "None") = false.
Proof. done. Qed.

Lemma given_empty : given (Some EmptyString) = false.
Proof. done. Qed.

Lemma add_update_length c v acc :
  length acc.1 = length acc.2 →
  length (add_update c v acc).1 = length (add_update c v acc).2.
Proof.
  intros H. unfold add_update. destruct (given v); simpl; [|done].
  rewrite !length_app. simpl. lia.
Qed.

Lemma elem_of_add_update_1 c v acc x :
  x ∈ (add_update c v acc).1 ↔ x ∈ acc.1 ∨ (x = c ∧ given v = true).
Proof.
  unfold add_update. destruct (given v); simpl.
  - rewrite elem_of_app, list_elem_of_singleton. tauto.
  - intuition congruence.
Qed.

Lemma elem_of_add_update_2 c v acc x :
  x ∈ (add_update c v acc).2 ↔ x ∈ acc.2 ∨ (x = v ∧ given v = true).
Proof.
  unfold add_update. destruct (given v); simpl.
  - rewrite elem_of_app, list_elem_of_singleton. tauto.
  - intuition congruence.
Qed.

Lemma zip_add_update c v acc x y :
  length acc.1 = length acc.2 →
  (x, y) ∈ zip (add_update c v acc).1 (add_update c v acc).2 →
  (x, y) ∈ zip acc.1 acc.2 ∨ (x = c ∧ y = v ∧ given v = true).
Proof.
  intros Hlen. unfold add_update. destruct (given v); simpl; [|by left].
  rewrite zip_with_app by done. simpl.
  rewrite elem_of_app, list_elem_of_singleton.
  intros [H | [= -> ->]]; [by left | by right].
Qed.

Variables hcp_name type date topics sentiment outcomes : option string.

Local Abbreviation updates :=
  (collect_updates hcp_name type date topics sentiment outcomes).1.
Local Abbreviation values :=
  (collect_updates hcp_name type date topics sentiment outcomes).2.

Lemma collect_updates_length : length updates = length values.
Proof. unfold collect_updates. by repeat apply add_update_length. Qed.

(** The update set holds exactly the columns whose argument passes the
    guard. *)
Lemma elem_of_updates c :
  c ∈ updates ↔
  given (argument c hcp_name type date topics sentiment outcomes) = true.
Proof.
  unfold collect_updates. rewrite !elem_of_add_update_1. simpl.
  rewrite elem_of_nil. destruct c; simpl; intuition congruence.
Qed.

(** Every bound value passed the guard. *)
Lemma elem_of_values v : v ∈ values → given v = true.
Proof.
  unfold collect_updates. rewrite !elem_of_add_update_2. simpl.
  rewrite elem_of_nil. intuition congruence.
Qed.

(** Each placeholder of the UPDATE is bound to the argument given for
    its own column. *)
Lemma elem_of_zip_updates c v :
  (c, v) ∈ zip updates values →
  v = argument c hcp_name type date topics sentiment outcomes ∧ given v = true.
Proof.
  unfold collect_updates. intros H.
  do 6 (apply zip_add_update in H; [| by repeat apply add_update_length];
        destruct H as [H | (-> & -> & ?)]; [| by split]).
  by apply elem_of_nil in H.
Qed.

Lemma updates_nil_iff :
  updates = [] ↔
  ∀ c, given (argument c hcp_name type date topics sentiment outcomes) = false.
Proof.
  split.
  - intros H c. apply not_true_iff_false. rewrite <- elem_of_updates, H.
    apply not_elem_of_nil.
  - intros H. destruct updates as [|c l] eqn:E; [done |].
    assert (c ∈ updates) as Hc by (rewrite E; by left).
    apply elem_of_updates in Hc. by rewrite H in Hc.
Qed.

(** What one call of [edit_interaction] returns and leaves behind, by
    the state of the server. *)
Lemma edit_interaction_eq w :
  edit_interaction hcp_name type date topics sentiment outcomes w =
  match server w with
  | ConnectFails e =>
      (Returns ("❌ Error updating: " +:+ e), record_call Connect w)
  | other =>
      let w2 := record_call Cursor (record_call Connect w) in
      match updates with
      | [] => (Returns "No changes requested.", w2)
      | _ :: _ =>
          let w3 := record_call (Execute (UpdateLastInteraction updates) values) w2 in
          match other with
          | ExecuteFails e => (Returns ("❌ Error updating: " +:+ e), w3)
          | CommitFails e =>
              (Returns ("❌ Error updating: " +:+ e), record_call Commit w3)
          | _ =>
              (Returns "✅ Interaction updated in database.",
               World (update_last (assign updates values) (interactions w))
                     (auto_increment w) (directory_select w) (server w)
                     (calls w3 ++ [Commit]))
          end
      end
  end.
Proof.
  pose proof collect_updates_length as Hlen.
  unfold edit_interaction, try_except, bind, get_db, cursor, execute, commit, ret.
  destruct w as [rows next sel srv log]; simpl.
  destruct (collect_updates hcp_name type date topics sentiment outcomes)
    as [[|c us] vs]; simpl in *.
  - by destruct srv.
  - rewrite bool_decide_eq_true_2 by done. by destruct srv.
Qed.

(** The table after one call. *)
Lemma edit_interaction_interactions w :
  interactions (edit_interaction hcp_name type date topics sentiment outcomes w).2 =
  match server w with
  | NoFault => update_last (assign updates values) (interactions w)
  | _ => interactions w
  end.
Proof.
  rewrite edit_interaction_eq.
  destruct (server w); simpl; destruct updates eqn:E; simpl; try done.
  by rewrite update_last_same.
Qed.

Lemma edit_interaction_returns w :
  ∃ text, (edit_interaction hcp_name type date topics sentiment outcomes w).1 = Returns text.
Proof.
  rewrite edit_interaction_eq.
  destruct (server w); simpl; destruct updates; simpl; eauto.
Qed.

End edit.

(** ** log_interaction *)

Section log.

Variables hcp_name type date : string.
Variables topics sentiment outcomes : option string.

Local Abbreviation val :=
  [Some hcp_name; Some type; Some date; topics; sentiment; outcomes].

(** What one call of [log_interaction] returns and leaves behind, by the
    state of the server. *)
Lemma log_interaction_eq w :
  log_interaction hcp_name type date topics sentiment outcomes w =
  let w1 := record_call Connect w in
  let w3 := record_call (Execute (InsertInteraction interaction_columns) val)
              (record_call Cursor w1) in
  match server w with
  | ConnectFails e => (Returns ("❌ Error logging interaction: " +:+ e), w1)
  | ExecuteFails e => (Returns ("❌ Error logging interaction: " +:+ e), w3)
  | CommitFails e =>
      (Returns ("❌ Error logging interaction: " +:+ e), record_call Commit w3)
  | NoFault =>
      (Returns "✅ Interaction logged successfully.",
       World (interactions w ++
                [Row (auto_increment w) (Some hcp_name) (Some type) (Some date)
                     topics sentiment outcomes])
             (auto_increment w + 1) (directory_select w) (server w)
             (calls w3 ++ [Commit]))
  end.
Proof.
  unfold log_interaction, try_except, bind, get_db, cursor, execute, commit, ret.
  destruct w as [rows next sel srv log]; simpl. by destruct srv.
Qed.

(** On a working server the call appends one row, under the next
    identifier of the table, with the six values as passed. *)
Lemma log_interaction_ok w :
  server w = NoFault →
  (log_interaction hcp_name type date topics sentiment outcomes w).1
    = Returns "✅ Interaction logged successfully." ∧
  interactions (log_interaction hcp_name type date topics sentiment outcomes w).2
    = interactions w ++
        [Row (auto_increment w) (Some hcp_name) (Some type) (Some date)
             topics sentiment outcomes] ∧
  auto_increment (log_interaction hcp_name type date topics sentiment outcomes w).2
    = auto_increment w + 1 ∧
  server (log_interaction hcp_name type date topics sentiment outcomes w).2 = NoFault.
Proof. intros H. by rewrite log_interaction_eq, H. Qed.

Lemma log_interaction_returns w :
  ∃ text,
    (log_interaction hcp_name type date topics sentiment outcomes w).1 = Returns text.
Proof. rewrite log_interaction_eq. destruct (server w); simpl; eauto. Qed.

End log.

(** ** The invariant of the auto-assigned identifiers *)

Section invariant.


Lemma auto_increment_edit hcp_name type date topics sentiment outcomes w :
  auto_increment (edit_interaction hcp_name type date topics sentiment outcomes w).2
  = auto_increment w.
Proof.
  rewrite edit_interaction_eq.
  destruct (server w); simpl;
    by destruct ((collect_updates hcp_name type date topics sentiment outcomes).1).
Qed.


End invariant.

(** ** Claims about edit_interaction *)

(** C1: when the update set of an Edit is not empty, every row keeps its
    identifier, a field whose argument is absent or the unset marker keeps
    its stored value, and a field that does change now holds the concrete
    value the caller supplied for it. *)
Theorem edit_interaction_changes_only_given_fields
    (hcp_name type date topics sentiment outcomes : option string) (w : world) :
  (collect_updates hcp_name type date topics sentiment outcomes).1 ≠ [] →
  Forall2
    (λ r r',
       id r' = id r ∧
       (∀ c,
          argument c hcp_name type date topics sentiment outcomes = None ∨
          argument c hcp_name type date topics sentiment outcomes = Some "None" →
          cell c r' = cell c r) ∧
       (∀ c,
          cell c r' ≠ cell c r →
          ∃ s, argument c hcp_name type date topics sentiment outcomes = Some s ∧
               s ≠ EmptyString ∧ s ≠ "None" ∧ cell c r' = Some s))
    (interactions w)
    (interactions (edit_interaction hcp_name type date topics sentiment outcomes w).2).
Proof.
  intros _. rewrite edit_interaction_interactions.
  assert (∀ r c,
    cell c (assign (collect_updates hcp_name type date topics sentiment outcomes).1
                   (collect_updates hcp_name type date topics sentiment outcomes).2 r)
      = cell c r ∨
    ∃ s, argument c hcp_name type date topics sentiment outcomes = Some s ∧
         s ≠ EmptyString ∧ s ≠ "None" ∧
         cell c (assign (collect_updates hcp_name type date topics sentiment outcomes).1
                        (collect_updates hcp_name type date topics sentiment outcomes).2 r)
           = Some s) as Hcell.
  { intros r c. destruct (assign_cell_zip c
      (collect_updates hcp_name type date topics sentiment outcomes).1
      (collect_updates hcp_name type date topics sentiment outcomes).2 r) as [H | H];
      [by left | right].
    apply elem_of_zip_updates in H as [Harg Hg].
    apply given_spec in Hg as (s & Hs & Hne & Hun).
    exists s. rewrite <- Harg. by rewrite Hs. }
  assert (Forall2
    (λ r r', r' = r ∨
       r' = assign (collect_updates hcp_name type date topics sentiment outcomes).1
                   (collect_updates hcp_name type date topics sentiment outcomes).2 r)
    (interactions w)
    (match server w with
     | NoFault =>
         update_last
           (assign (collect_updates hcp_name type date topics sentiment outcomes).1
                   (collect_updates hcp_name type date topics sentiment outcomes).2)
           (interactions w)
     | _ => interactions w
     end)) as Hrows.
  { destruct (server w);
      try (apply Forall_Forall2_diag, Forall_forall; by left).
    eapply Forall2_impl; [apply update_last_Forall2 |].
    intros r r' [-> | [_ ->]]; [by left | by right]. }
  eapply Forall2_impl; [exact Hrows |]. clear Hrows.
  intros r r' [-> | ->].
  - split; [done |]. split; [done |]. by intros c Hc.
  - split; [apply assign_id |]. split.
    + intros c Harg. destruct (Hcell r c) as [H | (s & Hs & _ & Hun & _)]; [done |].
      destruct Harg as [Harg | Harg]; rewrite Harg in Hs; congruence.
    + intros c Hc. destruct (Hcell r c) as [H | H]; done.
Qed.

(** The round trip of the specification: a record with topics "A", an Edit
    of the sentiment alone; the topics are still "A" and the sentiment
    changed. *)
Lemma edit_interaction_changes_only_given_fields_round_trip :
  Forall2
    (λ r r',
       id r' = id r ∧
       (∀ c,
          argument c None None None None (Some "Positive") None = None ∨
          argument c None None None None (Some "Positive") None = Some "None" →
          cell c r' = cell c r) ∧
       (∀ c,
          cell c r' ≠ cell c r →
          ∃ s, argument c None None None None (Some "Positive") None = Some s ∧
               s ≠ EmptyString ∧ s ≠ "None" ∧ cell c r' = Some s))
    (interactions one_record)
    (interactions (edit_interaction None None None None (Some "Positive") None one_record).2).
Proof.
  apply (edit_interaction_changes_only_given_fields
           None None None None (Some "Positive") None one_record).
  vm_compute. discriminate.
Defined.

(** C2: an Edit leaves every row that does not hold the largest identifier
    as it is and changes at most one position of the table, whatever its
    arguments; on a working server and a table that has a row it assigns
    its update set to exactly one position, whose row holds the largest
    identifier; after two Logs on a working server the Edit assigns the
    row of the second Log and leaves the row of the first as logged. *)
Theorem edit_interaction_targets_last_row :
  (∀ (hcp_name type date topics sentiment outcomes : option string) (w : world),
     Forall2 (λ r r', r' = r ∨ max_id (interactions w) = Some (id r))
       (interactions w)
       (interactions (edit_interaction hcp_name type date topics sentiment outcomes w).2) ∧
     ∃ i, ∀ j, j ≠ i →
       interactions (edit_interaction hcp_name type date topics sentiment outcomes w).2 !! j
       = interactions w !! j) ∧
  (∀ (hcp_name type date topics sentiment outcomes : option string) (w : world),
     server w = NoFault →
     interactions w ≠ [] →
     let updates := collect_updates hcp_name type date topics sentiment outcomes in
     ∃ i r,
       interactions w !! i = Some r ∧
       max_id (interactions w) = Some (id r) ∧
       interactions (edit_interaction hcp_name type date topics sentiment outcomes w).2
       = <[i:=assign updates.1 updates.2 r]> (interactions w)) ∧
  (∀ (w : world) (hcp_name1 type1 date1 hcp_name2 type2 date2 : string)
     (topics1 sentiment1 outcomes1 topics2 sentiment2 outcomes2 : option string)
     (hcp_name type date topics sentiment outcomes : option string),
     server w = NoFault →
     ids_assigned w →
     let w1 := (log_interaction hcp_name1 type1 date1 topics1 sentiment1 outcomes1 w).2 in
     let w2 := (log_interaction hcp_name2 type2 date2 topics2 sentiment2 outcomes2 w1).2 in
     let updates := collect_updates hcp_name type date topics sentiment outcomes in
     interactions (edit_interaction hcp_name type date topics sentiment outcomes w2).2 =
     interactions w ++
       [Row (auto_increment w) (Some hcp_name1) (Some type1) (Some date1)
            topics1 sentiment1 outcomes1;
        assign updates.1 updates.2
          (Row (auto_increment w + 1) (Some hcp_name2) (Some type2) (Some date2)
               topics2 sentiment2 outcomes2)]).
Proof.
  split_and!.
  - intros hcp_name type date topics sentiment outcomes w. split.
    + rewrite edit_interaction_interactions. destruct (server w);
        try (apply Forall_Forall2_diag, Forall_forall; by left).
      eapply Forall2_impl; [apply update_last_Forall2 |].
      intros r r' [-> | [Hmax _]]; [by left | by right].
    + rewrite edit_interaction_interactions. destruct (server w);
        try (by exists 0%nat). apply update_last_one_position.
  - intros h t d tp s o w Hsrv Hne. simpl.
    rewrite edit_interaction_interactions, Hsrv. by apply update_last_insert.
  - intros w h1 t1 d1 h2 t2 d2 tp1 s1 o1 tp2 s2 o2 h t d tp s o Hsrv Hids. simpl.
    destruct (log_interaction_ok h1 t1 d1 tp1 s1 o1 w Hsrv) as (_ & Hrows1 & Hnext1 & Hsrv1).
    destruct (log_interaction_ok h2 t2 d2 tp2 s2 o2 _ Hsrv1) as (_ & Hrows2 & _ & Hsrv2).
    rewrite edit_interaction_interactions, Hsrv2, Hrows2, Hrows1, Hnext1.
    rewrite update_last_snoc; [by rewrite <- app_assoc |].
    simpl. apply Forall_app. split.
    + eapply Forall_impl; [exact Hids |]. simpl. intros; lia.
    + repeat constructor. simpl. lia.
Qed.

(** Two Logs and an Edit of the sentiment on an empty table: the first
    record is as logged, the second holds the new sentiment. *)
Lemma edit_interaction_targets_last_row_two_logs :
  let w := World [] 1 (λ _, Returns []) NoFault [] in
  let w1 := (log_interaction "Dr. Smith" "Meeting" "2024-05-01"
               (Some "A") (Some "None") (Some "None") w).2 in
  let w2 := (log_interaction "Dr. Jones" "Call" "2024-05-02"
               (Some "B") (Some "Neutral") (Some "None") w1).2 in
  interactions (edit_interaction None None None None (Some "Positive") None w2).2 =
  [Row 1 (Some "Dr. Smith") (Some "Meeting") (Some "2024-05-01")
         (Some "A") (Some "None") (Some "None");
   Row 2 (Some "Dr. Jones") (Some "Call") (Some "2024-05-02")
         (Some "B") (Some "Positive") (Some "None")].
Proof.
  intros w w1 w2.
  exact (proj2 (proj2 edit_interaction_targets_last_row) w
           "Dr. Smith" "Meeting" "2024-05-01" "Dr. Jones" "Call" "2024-05-02"
           (Some "A") (Some "None") (Some "None") (Some "B") (Some "Neutral") (Some "None")
           None None None None (Some "Positive") None
           eq_refl (Forall_nil_2 _)).
Defined.

(** C5, as stated, fails: with every field absent and a server that
    refuses the connection, [get_db()] has been called and the result is
    the error text, not "No changes requested." *)
Lemma edit_interaction_empty_update_set_server_down :
  (collect_updates None None None None None None).1 = [] ∧
  (edit_interaction None None None None None None server_down).1
    = Returns "❌ Error updating: 2003: Can't connect to MySQL server on 'localhost:3306'" ∧
  (edit_interaction None None None None None None server_down).1
    ≠ Returns "No changes requested." ∧
  calls (edit_interaction None None None None None None server_down).2 = [Connect].
Proof. split_and!; [reflexivity | reflexivity | discriminate | reflexivity]. Qed.

(** C5, amended: when every field is absent or the unset marker the update
    set is empty; with an empty update set the Edit connects and opens a
    cursor but executes and commits nothing, the table is unchanged, and
    the result is "No changes requested." once the connection is
    established (the error text when connecting fails). *)
Theorem edit_interaction_empty_update_set
    (hcp_name type date topics sentiment outcomes : option string) (w : world) :
  ((∀ c, argument c hcp_name type date topics sentiment outcomes = None ∨
         argument c hcp_name type date topics sentiment outcomes = Some "None") →
   (collect_updates hcp_name type date topics sentiment outcomes).1 = []) ∧
  ((collect_updates hcp_name type date topics sentiment outcomes).1 = [] →
   interactions (edit_interaction hcp_name type date topics sentiment outcomes w).2
     = interactions w ∧
   auto_increment (edit_interaction hcp_name type date topics sentiment outcomes w).2
     = auto_increment w ∧
   match server w with
   | ConnectFails e =>
       (edit_interaction hcp_name type date topics sentiment outcomes w).1
         = Returns ("❌ Error updating: " +:+ e) ∧
       calls (edit_interaction hcp_name type date topics sentiment outcomes w).2
         = calls w ++ [Connect]
   | _ =>
       (edit_interaction hcp_name type date topics sentiment outcomes w).1
         = Returns "No changes requested." ∧
       calls (edit_interaction hcp_name type date topics sentiment outcomes w).2
         = calls w ++ [Connect; Cursor]
   end).
Proof.
  split.
  - intros H. apply updates_nil_iff. intros c.
    destruct (H c) as [-> | ->]; reflexivity.
  - intros H. rewrite edit_interaction_eq, H.
    destruct (server w); simpl; by rewrite <- ?app_assoc.
Qed.

Lemma edit_interaction_empty_update_set_unset_markers :
  (edit_interaction None (Some "None") None None (Some "None") None one_record).1
    = Returns "No changes requested." ∧
  interactions (edit_interaction None (Some "None") None None (Some "None") None one_record).2
    = interactions one_record ∧
  calls (edit_interaction None (Some "None") None None (Some "None") None one_record).2
    = [Connect; Cursor].
Proof.
  destruct (proj2 (edit_interaction_empty_update_set
                     None (Some "None") None None (Some "None") None one_record)
                  eq_refl) as (Hrows & _ & Hres & Hcalls).
  split_and!; [exact Hres | exact Hrows | exact Hcalls].
Defined.

(** C8, as stated, fails: an Edit of the sentiment on a working store with
    no record returns the success text, not a failure text. *)
Lemma edit_interaction_no_rows_reports_success :
  (collect_updates None None None None (Some "Positive") None).1 ≠ [] ∧
  interactions empty_store = [] ∧
  (edit_interaction None None None None (Some "Positive") None empty_store).1
    = Returns "✅ Interaction updated in database." ∧
  ¬ ∃ e, (edit_interaction None None None None (Some "Positive") None empty_store).1
         = Returns ("❌ Error updating: " +:+ e).
Proof.
  split_and!; [discriminate | reflexivity | reflexivity |].
  intros [e H]. vm_compute in H. discriminate H.
Qed.

(** C8, amended: with a non-empty update set, no record in the table and a
    working server, the UPDATE matches no row and succeeds: the table stays
    empty and the Edit returns its success text. *)
Theorem edit_interaction_no_rows
    (hcp_name type date topics sentiment outcomes : option string) (w : world) :
  (collect_updates hcp_name type date topics sentiment outcomes).1 ≠ [] →
  interactions w = [] →
  server w = NoFault →
  (edit_interaction hcp_name type date topics sentiment outcomes w).1
    = Returns "✅ Interaction updated in database." ∧
  interactions (edit_interaction hcp_name type date topics sentiment outcomes w).2 = [].
Proof.
  intros Hne Hrows Hsrv. split.
  - rewrite edit_interaction_eq, Hsrv.
    by destruct ((collect_updates hcp_name type date topics sentiment outcomes).1).
  - by rewrite edit_interaction_interactions, Hsrv, Hrows.
Qed.

Lemma edit_interaction_no_rows_sentiment :
  (edit_interaction None None None None (Some "Positive") None empty_store).1
    = Returns "✅ Interaction updated in database." ∧
  interactions (edit_interaction None None None None (Some "Positive") None empty_store).2
    = [].
Proof.
  apply (edit_interaction_no_rows None None None None (Some "Positive") None empty_store).
  - vm_compute. discriminate.
  - reflexivity.
  - reflexivity.
Defined.

Lemma add_update_blank_as u c v acc :
  given u = false → add_update c (blank_as u v) acc = add_update c v acc.
Proof.
  intros Hu. destruct v as [[|a s]|]; simpl; try done.
  unfold add_update. by rewrite Hu.
Qed.

(** C10: an empty string does not pass the guard of a field, so its column
    is not in the update set; an Edit behaves the same when the empty
    strings among its arguments are replaced by absent fields or by unset
    markers; and no cell holds an empty string after an Edit unless it held
    one before. *)
Theorem edit_interaction_empty_string_is_not_mentioned :
  given (Some EmptyString) = false ∧
  (∀ (hcp_name type date topics sentiment outcomes : option string) (c : column),
     argument c hcp_name type date topics sentiment outcomes = Some EmptyString →
     c ∉ (collect_updates hcp_name type date topics sentiment outcomes).1) ∧
  (∀ (u hcp_name type date topics sentiment outcomes : option string) (w : world),
     u = None ∨ u = Some "None" →
     edit_interaction (blank_as u hcp_name) (blank_as u type) (blank_as u date)
       (blank_as u topics) (blank_as u sentiment) (blank_as u outcomes) w
     = edit_interaction hcp_name type date topics sentiment outcomes w) ∧
  (∀ (hcp_name type date topics sentiment outcomes : option string) (w : world),
     Forall2 (λ r r', ∀ c, cell c r' = Some EmptyString → cell c r = Some EmptyString)
       (interactions w)
       (interactions (edit_interaction hcp_name type date topics sentiment outcomes w).2)).
Proof.
  split_and!.
  - reflexivity.
  - intros h t d tp s o c Harg Hin. apply elem_of_updates in Hin.
    by rewrite Harg in Hin.
  - intros u h t d tp s o w Hu.
    assert (given u = false) as Hg by (by destruct Hu as [-> | ->]).
    unfold edit_interaction, collect_updates. by rewrite !add_update_blank_as.
  - intros h t d tp s o w. rewrite edit_interaction_interactions.
    destruct (server w); try (apply Forall_Forall2_diag, Forall_forall; done).
    eapply Forall2_impl; [apply update_last_Forall2 |].
    intros r r' [-> | [_ ->]] c Hc; [done |].
    destruct (assign_cell_cases c (collect_updates h t d tp s o).1
                (collect_updates h t d tp s o).2 r) as [H | H]; [by rewrite <- H |].
    apply elem_of_values in H. by rewrite Hc in H.
Qed.

(** ** Claims about log_interaction *)

Section text.

Lemma startswith_head t c w :
  Py.startswith t (String c w) = true → Py.startswith t (String c EmptyString) = true.
Proof.
  destruct t as [|b t]; simpl; [done |].
  rewrite !andb_true_iff. intros [H _]. by destruct t.
Qed.

(** A text that holds a string holds its first character. *)
Lemma contains_head t c w :
  Py.contains t (String c w) = true → Py.contains t (String c EmptyString) = true.
Proof.
  induction t as [|b t IH]; [done |].
  cbn [Py.contains]. rewrite !orb_true_iff.
  intros [H | H]; [left; by eapply startswith_head | right; by apply IH].
Qed.

(** The decimal form of an integer starts with a digit or a minus sign. *)
Lemma str_of_int_head n :
  ∃ c w, Py.str_of_int n = String c w ∧
         In c ["0"; "1"; "2"; "3"; "4"; "5"; "6"; "7"; "8"; "9"; "-"]%char.
Proof.
  unfold Py.str_of_int. destruct (Z.to_int n) as [d | d]; simpl.
  - destruct d; simpl; eexists _, _; (split; [reflexivity |]); simpl; tauto.
  - eexists _, _. split; [reflexivity |]. simpl. tauto.
Qed.

(** The success text of [log_interaction] holds no integer. *)
Lemma logged_text_has_no_integer n :
  Py.contains "✅ Interaction logged successfully." (Py.str_of_int n) = false.
Proof.
  destruct (str_of_int_head n) as (c & w & -> & Hc).
  apply not_true_iff_false. intros H. apply contains_head in H.
  simpl in Hc.
  repeat (destruct Hc as [<- | Hc]; [vm_compute in H; discriminate H |]).
  done.
Qed.

End text.

(** C9, as stated, fails: a Log on a working empty store creates the
    record with identifier 1 and returns a text that does not hold it. *)
Lemma log_interaction_success_text_without_identifier :
  (log_interaction "Dr. Smith" "Meeting" "2024-05-01"
     (Some "None") (Some "None") (Some "None") empty_store).1
    = Returns "✅ Interaction logged successfully." ∧
  id <$> last (interactions
                 (log_interaction "Dr. Smith" "Meeting" "2024-05-01"
                    (Some "None") (Some "None") (Some "None") empty_store).2)
    = Some 1 ∧
  Py.contains "✅ Interaction logged successfully." (Py.str_of_int 1) = false.
Proof. split_and!; reflexivity. Qed.

(** C9, amended: a Log on a working server returns the fixed success text;
    the new record is stored last, under the next identifier of the table,
    and the text does not hold that identifier. *)
Theorem log_interaction_success_text
    (hcp_name type date : string) (topics sentiment outcomes : option string) (w : world) :
  server w = NoFault →
  (log_interaction hcp_name type date topics sentiment outcomes w).1
    = Returns "✅ Interaction logged successfully." ∧
  last (interactions (log_interaction hcp_name type date topics sentiment outcomes w).2)
    = Some (Row (auto_increment w) (Some hcp_name) (Some type) (Some date)
                topics sentiment outcomes) ∧
  Py.contains "✅ Interaction logged successfully." (Py.str_of_int (auto_increment w))
    = false.
Proof.
  intros Hsrv.
  destruct (log_interaction_ok hcp_name type date topics sentiment outcomes w Hsrv)
    as (Hres & Hrows & _).
  split_and!; [done | | apply logged_text_has_no_integer].
  rewrite Hrows. apply last_snoc.
Qed.

Lemma log_interaction_success_text_first_record :
  (log_interaction "Dr. Smith" "Meeting" "2024-05-01"
     (Some "None") (Some "None") (Some "None") empty_store).1
    = Returns "✅ Interaction logged successfully." ∧
  last (interactions
          (log_interaction "Dr. Smith" "Meeting" "2024-05-01"
             (Some "None") (Some "None") (Some "None") empty_store).2)
    = Some (Row 1 (Some "Dr. Smith") (Some "Meeting") (Some "2024-05-01")
                (Some "None") (Some "None") (Some "None")) ∧
  Py.contains "✅ Interaction logged successfully." (Py.str_of_int 1) = false.
Proof.
  exact (log_interaction_success_text "Dr. Smith" "Meeting" "2024-05-01"
           (Some "None") (Some "None") (Some "None") empty_store eq_refl).
Defined.

(** C3, as stated, fails: a Log invocation that supplies the provider name
    alone is refused when its arguments are bound, and no record is
    created. *)
Lemma invoke_log_interaction_provider_name_alone :
  (invoke_log_interaction {[ "hcp_name" := Some "Dr. Smith" ]} empty_store).1
    = Raises "validation error: type is missing" ∧
  interactions (invoke_log_interaction {[ "hcp_name" := Some "Dr. Smith" ]} empty_store).2
    = [].
Proof. split; vm_compute; reflexivity. Qed.

(** C3, amended: a Log invocation needs the provider name, the interaction
    type and the interaction date; on a working server it then appends one
    record that holds these three as given and, for each of topics,
    sentiment and outcomes, the value given or else the unset marker.  An
    invocation that lacks one of the three is refused and changes
    nothing. *)
Theorem invoke_log_interaction_record (args : gmap string (option string)) (w : world) :
  server w = NoFault →
  match args !! "hcp_name", args !! "type", args !! "date" with
  | Some (Some hcp_name), Some (Some type), Some (Some date) =>
      (invoke_log_interaction args w).1 = Returns "✅ Interaction logged successfully." ∧
      interactions (invoke_log_interaction args w).2 =
      interactions w ++
        [Row (auto_increment w) (Some hcp_name) (Some type) (Some date)
             (default (Some "None") (args !! "topics"))
             (default (Some "None") (args !! "sentiment"))
             (default (Some "None") (args !! "outcomes"))]
  | _, _, _ =>
      (∃ e, (invoke_log_interaction args w).1 = Raises e) ∧
      (invoke_log_interaction args w).2 = w
  end.
Proof.
  intros Hsrv. unfold invoke_log_interaction, bind, lift, required, optional.
  destruct (args !! "hcp_name") as [[h|]|]; simpl; [| by eauto | by eauto].
  destruct (args !! "type") as [[t|]|]; simpl; [| by eauto | by eauto].
  destruct (args !! "date") as [[d|]|]; simpl; [| by eauto | by eauto].
  match goal with
  | |- context [log_interaction h t d ?tp ?s ?o w] =>
      destruct (log_interaction_ok h t d tp s o w Hsrv) as (Hres & Hrows & _)
  end.
  split; [done |]. rewrite Hrows.
  by destruct (args !! "topics"), (args !! "sentiment"), (args !! "outcomes").
Qed.

Lemma invoke_log_interaction_record_topics_only :
  (invoke_log_interaction
     {[ "hcp_name" := Some "Dr. Smith"; "type" := Some "Meeting";
        "date" := Some "2024-05-01"; "topics" := Some "A" ]} empty_store).1
    = Returns "✅ Interaction logged successfully." ∧
  interactions
    (invoke_log_interaction
       {[ "hcp_name" := Some "Dr. Smith"; "type" := Some "Meeting";
          "date" := Some "2024-05-01"; "topics" := Some "A" ]} empty_store).2
    = [Row 1 (Some "Dr. Smith") (Some "Meeting") (Some "2024-05-01")
             (Some "A") (Some "None") (Some "None")].
Proof.
  exact (invoke_log_interaction_record
           {[ "hcp_name" := Some "Dr. Smith"; "type" := Some "Meeting";
              "date" := Some "2024-05-01"; "topics" := Some "A" ]}
           empty_store eq_refl).
Defined.

(** ** Failures inside a tool *)

(** C7: [log_interaction] and [edit_interaction] turn every failure of the
    store into a returned text, but [search_hcp] has no handler: when the
    server refuses the connection, or rejects the statement built from the
    searched name, the exception leaves the tool. *)
Theorem search_hcp_raises :
  (∀ str_of_rows name_query,
     (search_hcp str_of_rows name_query server_down).1
       = Raises "2003: Can't connect to MySQL server on 'localhost:3306'") ∧
  (∀ str_of_rows,
     (search_hcp str_of_rows "O'Brien" rejects_broken_select).1
       = Raises "1064 (42000): You have an error in your SQL syntax") ∧
  (∀ hcp_name type date topics sentiment outcomes w,
     ∃ text, (log_interaction hcp_name type date topics sentiment outcomes w).1
             = Returns text) ∧
  (∀ hcp_name type date topics sentiment outcomes w,
     ∃ text, (edit_interaction hcp_name type date topics sentiment outcomes w).1
             = Returns text).
Proof.
  split_and!.
  - reflexivity.
  - intros f. vm_compute. reflexivity.
  - intros. apply log_interaction_returns.
  - intros. apply edit_interaction_returns.
Qed.

(** ** The [/chat] endpoint *)

Section chat.

Lemma scan_tool_calls_spec extracted_data tcs :
  scan_tool_calls extracted_data tcs =
  match last (filter is_log_or_edit tcs) with
  | Some tc => Some (tool_args tc)
  | None => extracted_data
  end.
Proof.
  unfold scan_tool_calls. revert extracted_data.
  induction tcs as [|tc tcs IH]; intros acc; simpl; [done |].
  rewrite IH, filter_cons.
  assert (tool_name tc ∈ ["log_interaction"; "edit_interaction"] ↔ is_log_or_edit tc)
    as Hiff.
  { unfold is_log_or_edit. rewrite !elem_of_cons, elem_of_nil. tauto. }
  destruct (decide (is_log_or_edit tc)) as [H | H].
  - rewrite bool_decide_eq_true_2 by (by apply Hiff). rewrite last_cons.
    by destruct (last (filter is_log_or_edit tcs)).
  - rewrite bool_decide_eq_false_2 by (by rewrite Hiff). done.
Qed.

Lemma extract_tool_data_from extracted_data messages :
  fold_left
    (λ extracted_data msg,
       match tool_calls msg with
       | Some ((_ :: _) as tcs) => scan_tool_calls extracted_data tcs
       | _ => extracted_data
       end)
    messages extracted_data =
  match last (filter is_log_or_edit (invocations messages)) with
  | Some tc => Some (tool_args tc)
  | None => extracted_data
  end.
Proof.
  revert extracted_data.
  induction messages as [|m messages IH]; intros acc; [done |].
  cbn [fold_left invocations flat_map]. rewrite IH. fold (invocations messages).
  rewrite filter_app, last_app.
  destruct (last (filter is_log_or_edit (invocations messages))); [done |].
  destruct (tool_calls m) as [[|tc tcs]|]; [done | | done].
  exact (scan_tool_calls_spec acc (tc :: tcs)).
Qed.

(** The loop of the endpoint keeps the arguments of the last Log or Edit
    invocation of the turn. *)
Lemma extract_tool_data_spec messages :
  extract_tool_data messages =
  tool_args <$> last (filter is_log_or_edit (invocations messages)).
Proof.
  unfold extract_tool_data. rewrite extract_tool_data_from.
  by destruct (last (filter is_log_or_edit (invocations messages))).
Qed.

End chat.

(** C4: when the agent returns its messages, the response text is the
    content of the last message and the snapshot is the argument mapping
    of the last invocation of the turn that is a Log or an Edit, absent
    when the turn has none. *)
Theorem chat_endpoint_snapshot
    (agent_executor_invoke : list message → io (list message))
    (req_message : string) (w w' : world) (result : list message) (m : message) :
  agent_executor_invoke [SystemMessage SYSTEM_PROMPT; HumanMessage req_message] w
    = (Returns result, w') →
  last result = Some m →
  chat_endpoint agent_executor_invoke req_message w =
  (Returns
     (ChatResponse (content m)
        (tool_args <$> last (filter is_log_or_edit (invocations result)))),
   w') ∧
  (filter is_log_or_edit (invocations result) = [] →
   form_data <$> (match (chat_endpoint agent_executor_invoke req_message w).1 with
                  | Returns r => Some r
                  | Raises _ => None
                  end) = Some None).
Proof.
  intros Hrun Hlast.
  assert (chat_endpoint agent_executor_invoke req_message w =
          (Returns
             (ChatResponse (content m)
                (tool_args <$> last (filter is_log_or_edit (invocations result)))),
           w')) as Heq.
  { unfold chat_endpoint, bind. rewrite Hrun, Hlast. unfold ret.
    by rewrite extract_tool_data_spec. }
  split; [exact Heq |]. intros Hnone. by rewrite Heq, Hnone.
Qed.

(** Search, Log, Search: the snapshot is the mapping of the Log. *)
Lemma chat_endpoint_snapshot_search_log_search :
  chat_endpoint (λ _, ret search_log_search)
    "Log a meeting with Dr. Smith today about pricing" empty_store =
  (Returns
     (ChatResponse "The meeting with Dr. Smith is logged."
        (Some {[ "hcp_name" := Some "Dr. Smith"; "type" := Some "Meeting";
                 "date" := Some "2024-05-01"; "topics" := Some "pricing" ]})),
   empty_store).
Proof.
  exact (proj1 (chat_endpoint_snapshot (λ _, ret search_log_search)
                  "Log a meeting with Dr. Smith today about pricing"
                  empty_store empty_store search_log_search
                  (AIMessage "The meeting with Dr. Smith is logged." [])
                  eq_refl eq_refl)).
Defined.

(** ** The examples of the specification, evaluated *)

Example check_compliance_miracle_cure :
  check_compliance "This drug is a MIRACLE cure" =
  "⚠️ COMPLIANCE WARNING: Found restricted terms: ['cure', 'miracle']. Please rephrase.".
Proof. reflexivity. Qed.

Example check_compliance_clean :
  check_compliance "Discussed the dosing schedule" = "✅ Compliance Check Passed.".
Proof. reflexivity. Qed.

Example edit_sentiment_keeps_topics :
  interactions (edit_interaction None None None None (Some "Positive") None one_record).2 =
  [Row 1 (Some "Dr. Smith") (Some "Meeting") (Some "2024-05-01")
         (Some "A") (Some "Positive") (Some "None")].
Proof. reflexivity. Qed.

Example invoke_edit_interaction_no_arguments :
  (invoke_edit_interaction ∅ one_record).1 = Returns "No changes requested.".
Proof. vm_compute. reflexivity. Qed.

Example chat_endpoint_no_invocation :
  chat_endpoint
    (λ messages, ret (messages ++ [AIMessage "Hello, how can I help?" []]))
    "hi" empty_store =
  (Returns (ChatResponse "Hello, how can I help?" None), empty_store).
Proof. reflexivity. Qed.

(** * Further properties of the tools *)

(** ** Rows and assignments *)

Section rows.

(** A row is its identifier and its six cells. *)
Lemma row_ext r r' : id r = id r' → (∀ c, cell c r = cell c r') → r = r'.
Proof.
  destruct r, r'. simpl. intros -> H.
  pose proof (H col_hcp_name) as H1. pose proof (H col_interaction_type) as H2.
  pose proof (H col_interaction_date) as H3. pose proof (H col_topics_discussed) as H4.
  pose proof (H col_sentiment) as H5. pose proof (H col_outcomes) as H6.
  simpl in *. congruence.
Qed.

(** A column that is assigned holds a parameter bound to a placeholder of
    its own. *)
Lemma assign_cell_in c cs vs r :
  c ∈ cs → length cs = length vs → (c, cell c (assign cs vs r)) ∈ zip cs vs.
Proof.
  revert vs r. induction cs as [|c' cs IH]; intros [|v vs] r Hin Hlen;
    try done; [by inversion Hin |].
  simpl in *. injection Hlen as Hlen.
  destruct (decide (c ∈ cs)) as [Hcs | Hcs].
  - right. by apply IH.
  - apply elem_of_cons in Hin as [-> | Hin]; [|done].
    rewrite assign_cell_other by done. rewrite cell_set_cell_eq. by left.
Qed.

Lemma fmap_id_update_first p f rows :
  (∀ r, id (f r) = id r) → id <$> update_first p f rows = id <$> rows.
Proof.
  intros Hf. induction rows as [|r rows IH]; simpl; [done |].
  destruct (p r); csimpl; by rewrite ?Hf, ?IH.
Qed.

Lemma max_id_fmap rows rows' : id <$> rows = id <$> rows' → max_id rows = max_id rows'.
Proof.
  revert rows'. induction rows as [|r rows IH]; intros [|r' rows'] H; try done.
  csimpl in *. injection H as Hr H. by rewrite Hr, (IH rows' H).
Qed.

(** The UPDATE changes no identifier. *)
Lemma fmap_id_update_last f rows :
  (∀ r, id (f r) = id r) → id <$> update_last f rows = id <$> rows.
Proof.
  intros Hf. unfold update_last. destruct (max_id rows); [|done].
  by apply fmap_id_update_first.
Qed.

Lemma update_first_compose p f g rows :
  (∀ r, p (g r) = p r) →
  update_first p f (update_first p g rows) = update_first p (λ r, f (g r)) rows.
Proof.
  intros Hp. induction rows as [|r rows IH]; simpl; [done |].
  destruct (p r) eqn:Hr; simpl.
  - by rewrite Hp, Hr.
  - by rewrite Hr, IH.
Qed.

(** Two UPDATEs in a row assign the same row. *)
Lemma update_last_compose f g rows :
  (∀ r, id (g r) = id r) →
  update_last f (update_last g rows) = update_last (λ r, f (g r)) rows.
Proof.
  intros Hg. unfold update_last at 1.
  rewrite (max_id_fmap _ rows (fmap_id_update_last g rows Hg)).
  unfold update_last. destruct (max_id rows) as [m|]; [|done].
  apply update_first_compose. intros r. by rewrite Hg.
Qed.

Lemma update_first_ext p f g rows :
  (∀ r, f r = g r) → update_first p f rows = update_first p g rows.
Proof.
  intros H. induction rows as [|r rows IH]; simpl; [done |].
  destruct (p r); by rewrite ?H, ?IH.
Qed.

Lemma update_last_ext f g rows :
  (∀ r, f r = g r) → update_last f rows = update_last g rows.
Proof.
  intros H. unfold update_last. destruct (max_id rows); [|done].
  by apply update_first_ext.
Qed.

End rows.

(** ** The merge of an Edit *)

Section merge.

Variables hcp_name type date topics sentiment outcomes : option string.

Local Abbreviation updates :=
  (collect_updates hcp_name type date topics sentiment outcomes).1.
Local Abbreviation values :=
  (collect_updates hcp_name type date topics sentiment outcomes).2.

(** The cells of a row after the SET of an Edit: the argument where it
    passes the guard, the old cell elsewhere. *)
Lemma assign_updates_cell r c :
  cell c (assign updates values r) =
  if given (argument c hcp_name type date topics sentiment outcomes)
  then argument c hcp_name type date topics sentiment outcomes
  else cell c r.
Proof.
  destruct (given (argument c hcp_name type date topics sentiment outcomes)) eqn:Hg.
  - apply elem_of_updates in Hg.
    pose proof (assign_cell_in c updates values r Hg
                  (collect_updates_length hcp_name type date topics sentiment outcomes))
      as Hin.
    by apply elem_of_zip_updates in Hin as [-> _].
  - apply assign_cell_other. rewrite elem_of_updates. by rewrite Hg.
Qed.

Lemma assign_updates_idempotent r :
  assign updates values (assign updates values r) = assign updates values r.
Proof.
  apply row_ext; [by rewrite !assign_id |].
  intros c. rewrite !assign_updates_cell.
  by destruct (given (argument c hcp_name type date topics sentiment outcomes)).
Qed.

Lemma server_edit w :
  server (edit_interaction hcp_name type date topics sentiment outcomes w).2 = server w.
Proof.
  rewrite edit_interaction_eq. destruct (server w) eqn:E; simpl;
    destruct updates; simpl; by rewrite ?E.
Qed.

End merge.

(** ** More about edit_interaction *)

(** X1: on a working server and a table that has a row, an Edit rewrites
    one position, whose row holds the largest identifier: the row keeps
    its identifier, every field whose argument passes the guard now holds
    that argument, and every other field holds what it held. *)
Theorem edit_interaction_writes_given_fields
    (hcp_name type date topics sentiment outcomes : option string) (w : world) :
  server w = NoFault →
  interactions w ≠ [] →
  ∃ i r r',
    interactions w !! i = Some r ∧
    max_id (interactions w) = Some (id r) ∧
    interactions (edit_interaction hcp_name type date topics sentiment outcomes w).2
      = <[i:=r']> (interactions w) ∧
    id r' = id r ∧
    ∀ c, cell c r' =
         if given (argument c hcp_name type date topics sentiment outcomes)
         then argument c hcp_name type date topics sentiment outcomes
         else cell c r.
Proof.
  intros Hsrv Hne. rewrite edit_interaction_interactions, Hsrv.
  destruct (update_last_insert
              (assign (collect_updates hcp_name type date topics sentiment outcomes).1
                      (collect_updates hcp_name type date topics sentiment outcomes).2)
              (interactions w) Hne) as (i & r & Hi & Hmax & Heq).
  exists i, r, (assign (collect_updates hcp_name type date topics sentiment outcomes).1
                       (collect_updates hcp_name type date topics sentiment outcomes).2 r).
  split_and!; [done | done | done | apply assign_id |].
  intros c. apply assign_updates_cell.
Qed.

Lemma edit_interaction_writes_given_fields_two_fields :
  ∃ i r r',
    interactions one_record !! i = Some r ∧
    max_id (interactions one_record) = Some (id r) ∧
    interactions
      (edit_interaction None (Some "Call") None None (Some "Positive") (Some "None")
         one_record).2
      = <[i:=r']> (interactions one_record) ∧
    id r' = id r ∧
    ∀ c, cell c r' =
         if given (argument c None (Some "Call") None None (Some "Positive") (Some "None"))
         then argument c None (Some "Call") None None (Some "Positive") (Some "None")
         else cell c r.
Proof.
  apply (edit_interaction_writes_given_fields
           None (Some "Call") None None (Some "Positive") (Some "None") one_record).
  - reflexivity.
  - discriminate.
Defined.

(** X2: an Edit that is repeated with the same arguments leaves the table
    as the first one left it, whatever the server does. *)
Theorem edit_interaction_idempotent
    (hcp_name type date topics sentiment outcomes : option string) (w : world) :
  interactions
    (edit_interaction hcp_name type date topics sentiment outcomes
       (edit_interaction hcp_name type date topics sentiment outcomes w).2).2
  = interactions (edit_interaction hcp_name type date topics sentiment outcomes w).2.
Proof.
  rewrite !edit_interaction_interactions, server_edit.
  destruct (server w); try done.
  rewrite update_last_compose by (intros; apply assign_id).
  apply update_last_ext, assign_updates_idempotent.
Qed.

(** X3: two Edits in a row on a working server rewrite the same position:
    a field holds the argument of the second Edit when that passes the
    guard, else the argument of the first when that passes, else what it
    held before. *)
Theorem edit_interaction_twice_last_wins
    (hcp_name1 type1 date1 topics1 sentiment1 outcomes1 : option string)
    (hcp_name2 type2 date2 topics2 sentiment2 outcomes2 : option string) (w : world) :
  server w = NoFault →
  interactions w ≠ [] →
  ∃ i r r',
    interactions w !! i = Some r ∧
    max_id (interactions w) = Some (id r) ∧
    interactions
      (edit_interaction hcp_name2 type2 date2 topics2 sentiment2 outcomes2
         (edit_interaction hcp_name1 type1 date1 topics1 sentiment1 outcomes1 w).2).2
      = <[i:=r']> (interactions w) ∧
    id r' = id r ∧
    ∀ c, cell c r' =
         if given (argument c hcp_name2 type2 date2 topics2 sentiment2 outcomes2)
         then argument c hcp_name2 type2 date2 topics2 sentiment2 outcomes2
         else if given (argument c hcp_name1 type1 date1 topics1 sentiment1 outcomes1)
              then argument c hcp_name1 type1 date1 topics1 sentiment1 outcomes1
              else cell c r.
Proof.
  intros Hsrv Hne.
  rewrite !edit_interaction_interactions, server_edit, Hsrv.
  rewrite update_last_compose by (intros; apply assign_id).
  destruct (update_last_insert
    (λ r, assign (collect_updates hcp_name2 type2 date2 topics2 sentiment2 outcomes2).1
                 (collect_updates hcp_name2 type2 date2 topics2 sentiment2 outcomes2).2
            (assign (collect_updates hcp_name1 type1 date1 topics1 sentiment1 outcomes1).1
                    (collect_updates hcp_name1 type1 date1 topics1 sentiment1 outcomes1).2
                    r))
    (interactions w) Hne) as (i & r & Hi & Hmax & Heq).
  eexists i, r, _. split_and!; [done | done | exact Heq | by rewrite !assign_id |].
  intros c. by rewrite !assign_updates_cell.
Qed.

Lemma edit_interaction_twice_last_wins_sentiment :
  ∃ i r r',
    interactions one_record !! i = Some r ∧
    max_id (interactions one_record) = Some (id r) ∧
    interactions
      (edit_interaction None None None None (Some "Negative") None
         (edit_interaction None None None (Some "B") (Some "Positive") None one_record).2).2
      = <[i:=r']> (interactions one_record) ∧
    id r' = id r ∧
    ∀ c, cell c r' =
         if given (argument c None None None None (Some "Negative") None)
         then argument c None None None None (Some "Negative") None
         else if given (argument c None None None (Some "B") (Some "Positive") None)
              then argument c None None None (Some "B") (Some "Positive") None
              else cell c r.
Proof.
  apply (edit_interaction_twice_last_wins
           None None None (Some "B") (Some "Positive") None
           None None None None (Some "Negative") None one_record).
  - reflexivity.
  - discriminate.
Defined.


(** X4: when the server fails and the update set is not empty, the Edit
    returns the error text with the server's message and the table is as
    it was: nothing of the update is kept. *)
Theorem edit_interaction_failure
    (hcp_name type date topics sentiment outcomes : option string) (w : world) (e : string) :
  fault_message (server w) = Some e →
  (collect_updates hcp_name type date topics sentiment outcomes).1 ≠ [] →
  (edit_interaction hcp_name type date topics sentiment outcomes w).1
    = Returns ("❌ Error updating: " +:+ e) ∧
  interactions (edit_interaction hcp_name type date topics sentiment outcomes w).2
    = interactions w ∧
  auto_increment (edit_interaction hcp_name type date topics sentiment outcomes w).2
    = auto_increment w.
Proof.
  intros He Hne. split_and!; [| | apply auto_increment_edit].
  - rewrite edit_interaction_eq.
    destruct (server w); simpl in He; try done; injection He as ->; try done;
      by destruct ((collect_updates hcp_name type date topics sentiment outcomes).1).
  - rewrite edit_interaction_interactions. by destruct (server w).
Qed.

Lemma edit_interaction_failure_at_commit :
  (edit_interaction None None None None (Some "Positive") None commit_fails).1
    = Returns "❌ Error updating: 2013: Lost connection to MySQL server during query" ∧
  interactions (edit_interaction None None None None (Some "Positive") None commit_fails).2
    = interactions commit_fails ∧
  auto_increment (edit_interaction None None None None (Some "Positive") None commit_fails).2
    = auto_increment commit_fails.
Proof.
  apply (edit_interaction_failure None None None None (Some "Positive") None commit_fails
           "2013: Lost connection to MySQL server during query").
  - reflexivity.
  - vm_compute. discriminate.
Defined.

(** ** More about log_interaction *)



(** ** search_hcp *)

Section search.

Variable str_of_rows : list directory_entry → string.

(** What one call of [search_hcp] returns and leaves behind, by the state
    of the server and its answer to the SELECT. *)
Lemma search_hcp_eq name_query w :
  search_hcp str_of_rows name_query w =
  let w1 := record_call Connect w in
  let w3 := record_call (Execute (SelectDirectory (select_text name_query)) [])
              (record_call Cursor w1) in
  match server w with
  | ConnectFails e => (Raises e, w1)
  | ExecuteFails e => (Raises e, w3)
  | _ =>
      match directory_select w (select_text name_query) with
      | Raises e => (Raises e, w3)
      | Returns found =>
          (Returns (match found with
                    | _ :: _ => str_of_rows found
                    | [] => "No HCP found."
                    end),
           record_call Fetchall w3)
      end
  end.
Proof.
  unfold search_hcp, bind, get_db, cursor, execute, fetchall, ret, select_text.
  destruct w as [rows next sel srv log]; simpl.
  destruct srv; simpl; try done;
    by destruct (sel _).
Qed.

End search.

(** X6: on a server that connects and executes, a Search returns "No HCP
    found." when the SELECT finds no row, the rendering of the rows when
    it finds some, and raises the server's error when the server rejects
    the SELECT. *)
Theorem search_hcp_result
    (str_of_rows : list directory_entry → string) (name_query : string) (w : world) :
  server w = NoFault →
  match directory_select w (select_text name_query) with
  | Returns [] => (search_hcp str_of_rows name_query w).1 = Returns "No HCP found."
  | Returns found => (search_hcp str_of_rows name_query w).1 = Returns (str_of_rows found)
  | Raises e => (search_hcp str_of_rows name_query w).1 = Raises e
  end.
Proof.
  intros Hsrv. rewrite search_hcp_eq, Hsrv. simpl.
  by destruct (directory_select w (select_text name_query)) as [[|entry found] | e].
Qed.

Lemma search_hcp_result_smith :
  (search_hcp (λ rows, Py.str_of_list (name <$> rows)) "Smith" smith_directory).1
    = Returns "['Dr. Smith']".
Proof.
  exact (search_hcp_result (λ rows, Py.str_of_list (name <$> rows)) "Smith"
           smith_directory eq_refl).
Defined.


(** ** The identifiers of the table *)

Section identifiers.



End identifiers.



(** X9: each call of a tool that reaches the store opens exactly one
    connection, before any other call on the driver. *)
Theorem tools_connect_once (w : world) :
  (∀ (hcp_name type date : string) (topics sentiment outcomes : option string),
     ∃ rest,
       calls (log_interaction hcp_name type date topics sentiment outcomes w).2
         = calls w ++ Connect :: rest ∧ Connect ∉ rest) ∧
  (∀ hcp_name type date topics sentiment outcomes : option string,
     ∃ rest,
       calls (edit_interaction hcp_name type date topics sentiment outcomes w).2
         = calls w ++ Connect :: rest ∧ Connect ∉ rest) ∧
  (∀ (str_of_rows : list directory_entry → string) (name_query : string),
     ∃ rest,
       calls (search_hcp str_of_rows name_query w).2
         = calls w ++ Connect :: rest ∧ Connect ∉ rest).
Proof.
  split_and!.
  - intros h t d tp sn o. rewrite log_interaction_eq.
    destruct (server w); simpl; eexists;
      (split; [by rewrite <- ?app_assoc |]); simpl;
      rewrite ?not_elem_of_cons; split_and?; try discriminate; apply not_elem_of_nil.
  - intros h t d tp sn o. rewrite edit_interaction_eq.
    destruct (server w); simpl;
      destruct ((collect_updates h t d tp sn o).1); simpl;
      eexists; (split; [by rewrite <- ?app_assoc |]); simpl;
      rewrite ?not_elem_of_cons; split_and?; try discriminate; apply not_elem_of_nil.
  - intros f q. rewrite search_hcp_eq.
    destruct (server w); simpl;
      try destruct (directory_select w (select_text q)); simpl;
      eexists; (split; [by rewrite <- ?app_assoc |]); simpl;
      rewrite ?not_elem_of_cons; split_and?; try discriminate; apply not_elem_of_nil.
Qed.

(** ** More about check_compliance *)

Section scan.



Lemma append_assoc (a b c : string) : (a +:+ b) +:+ c = a +:+ b +:+ c.
Proof.
  induction a as [|x a IH]; [done |].
  change (String x ((a +:+ b) +:+ c) = String x (a +:+ b +:+ c)). by rewrite IH.
Qed.

End scan.


(** X11: a term flagged in a text is flagged in every text that holds it,
    so a restricted term is also found inside a longer word: "cure" is
    flagged in "secure". *)
Theorem flagged_in_longer_text (pre text suf word : string) :
  In word (flagged text) → In word (flagged (pre +:+ text +:+ suf)).
Proof.
  rewrite !flagged_spec. intros [Hin (p & mid & s & -> & Hmid)]. split; [done |].
  exists (pre +:+ p), mid, (s +:+ suf). split; [|done].
  by rewrite !append_assoc.
Qed.

Lemma flagged_in_longer_text_secure :
  In "cure" (flagged ("se" +:+ "cure" +:+ " payment")).
Proof.
  apply (flagged_in_longer_text "se" "cure" " payment" "cure").
  vm_compute. tauto.
Defined.

(** ** More about the [/chat] endpoint *)

Section turn.

Lemma invocations_app a b : invocations (a ++ b) = invocations a ++ invocations b.
Proof. unfold invocations. apply flat_map_app. Qed.

End turn.

(** X12: the endpoint has no handler: an error of the agent leaves it
    unchanged, a run without messages raises an index error, and the
    endpoint returns a response only when the agent returned at least one
    message. *)
Theorem chat_endpoint_failures
    (agent_executor_invoke : list message → io (list message))
    (req_message : string) (w : world) :
  (∀ e w',
     agent_executor_invoke [SystemMessage SYSTEM_PROMPT; HumanMessage req_message] w
       = (Raises e, w') →
     chat_endpoint agent_executor_invoke req_message w = (Raises e, w')) ∧
  (∀ w',
     agent_executor_invoke [SystemMessage SYSTEM_PROMPT; HumanMessage req_message] w
       = (Returns [], w') →
     chat_endpoint agent_executor_invoke req_message w
       = (Raises "list index out of range", w')) ∧
  (∀ r w',
     chat_endpoint agent_executor_invoke req_message w = (Returns r, w') →
     ∃ result,
       agent_executor_invoke [SystemMessage SYSTEM_PROMPT; HumanMessage req_message] w
         = (Returns result, w') ∧
       result ≠ []).
Proof.
  unfold chat_endpoint, bind. split_and!.
  - intros e w' H. by rewrite H.
  - intros w' H. by rewrite H.
  - intros r w'.
    destruct (agent_executor_invoke _ w) as [[result | e] w1]; [|done].
    destruct (last result) eqn:Hlast; unfold ret, raise; intros [= <- <-].
    exists result. split; [done |]. intros ->. done.
Qed.

(** X13: over two stretches of messages the snapshot is that of the later
    stretch when it has one, else that of the earlier; messages without
    tool calls give no snapshot. *)
Theorem extract_tool_data_app (earlier later : list message) :
  extract_tool_data (earlier ++ later) =
  match extract_tool_data later with
  | Some args => Some args
  | None => extract_tool_data earlier
  end ∧
  (Forall (λ m, tool_calls m = None ∨ tool_calls m = Some []) later →
   extract_tool_data (earlier ++ later) = extract_tool_data earlier).
Proof.
  assert (extract_tool_data (earlier ++ later) =
          match extract_tool_data later with
          | Some args => Some args
          | None => extract_tool_data earlier
          end) as Happ.
  { rewrite !extract_tool_data_spec, invocations_app, filter_app, last_app.
    by destruct (last (filter is_log_or_edit (invocations later))). }
  split; [exact Happ |]. intros Hnone. rewrite Happ. clear Happ.
  assert (invocations later = []) as Hinv.
  { unfold invocations.
    induction Hnone as [|m l [Hm | Hm] _ IH]; [done | |];
      cbn [flat_map]; by rewrite Hm, IH. }
  by rewrite extract_tool_data_spec, Hinv.
Qed.

(** X14: the text the scan returns names exactly the flagged terms: a
    restricted term occurs in the result text when it is flagged, and
    only then. *)
Theorem check_compliance_names_flagged (text word : string) :
  In word risky_keywords →
  (Py.contains (check_compliance text) word = true ↔ In word (flagged text)).
Proof.
  intros Hword. unfold check_compliance, flagged. simpl.
  destruct (Py.contains (Py.lower text) "guarantee"),
           (Py.contains (Py.lower text) "cure"),
           (Py.contains (Py.lower text) "miracle"),
           (Py.contains (Py.lower text) "off-label");
    simpl in Hword; destruct Hword as [<- | [<- | [<- | [<- | []]]]];
    vm_compute; split; intros H;
    first [ reflexivity
          | discriminate H
          | tauto
          | repeat (destruct H as [H | H]; try discriminate H); done ].
Qed.

Lemma check_compliance_names_flagged_miracle :
  Py.contains (check_compliance "This drug is a MIRACLE cure") "miracle" = true ↔
  In "miracle" (flagged "This drug is a MIRACLE cure").
Proof.
  apply (check_compliance_names_flagged "This drug is a MIRACLE cure" "miracle").
  simpl. tauto.
Defined.
